(** * prixnc_extractor.py: paginated retrieval with retries, and record cleaning

    A shallow embedding of [SessionManager], [APIClient] and
    [PrixNcExctractService] of [src/prixnc-extractor/prixnc_extractor.py].

    - JSON values are an inductive type; a Python [dict] is a [gmap string json].
    - [self] and the observable effects (requests sent, sessions drawn, delays
      slept, log records) are threaded through a state-and-exception monad.
    - The network and [random.choice] are an oracle ([world]): the reply to the
      [t]-th GET of the run, and the [k]-th random draw.
    - The two libraries the code drives are embedded as far as the code uses
      them. Of [requests]: the exception classes with their subclass relation,
      [Response.raise_for_status] and what [Response.json] raises. Of
      [tenacity]: the [Retrying] loop with [stop_after_attempt],
      [wait_exponential] and [retry_if_exception_type], and [RetryError]. *)

From stdpp Require Import gmap strings list fin_maps pretty.
From Stdlib Require Import ZArith Lia.

Set Warnings "-register-all".

(** ** JSON values as [Response.json()] produces them *)

(** [JFloat m e] stands for the float [m * 2^e]; only its being zero or not is
    ever observed. *)
Inductive json : Type :=
| JNull
| JBool (b : bool)
| JInt (z : Z)
| JFloat (m e : Z)
| JStr (s : string)
| JArr (l : list json)
| JObj (o : gmap string json).

(** ** Exceptions

    The classes that can reach the handlers of [_api_call] and the caller of
    [load_data], with the subclass facts of [requests.exceptions] and of the
    builtins that the [isinstance] tests below decide on. All of them derive
    from [Exception]; [KeyboardInterrupt] and the like are not modelled. *)
Inductive exn : Type :=
| HTTPError (status_code : Z)   (* requests.exceptions.HTTPError(RequestException) *)
| ConnectionError               (* requests.exceptions.ConnectionError(RequestException) *)
| ReadTimeout                   (* requests.exceptions.ReadTimeout(Timeout(RequestException)) *)
| RequestException              (* any other requests.exceptions.RequestException *)
| JSONDecodeError               (* requests.exceptions.JSONDecodeError(InvalidJSONError, json.JSONDecodeError),
                                   what Response.json() raises since requests 2.27 *)
| TimeoutError                  (* builtins.TimeoutError(OSError) *)
| ValueError (msg : string)     (* builtins.ValueError and its plain subclasses, among them
                                   json.JSONDecodeError, what Response.json() let through before requests 2.27 *)
| KeyError (key : string)
| TypeError
| IndexError
| AttributeError
| RetryError (last : exn).      (* tenacity.RetryError, carrying the last attempt's exception *)

(** [isinstance(e, requests.exceptions.RequestException)] *)
Definition is_RequestException (e : exn) : bool :=
  match e with
  | HTTPError _ | ConnectionError | ReadTimeout | RequestException | JSONDecodeError => true
  | _ => false
  end.

(** [isinstance(e, requests.exceptions.ConnectionError)]: the name the module
    imports shadows the builtin. *)
Definition is_ConnectionError (e : exn) : bool :=
  match e with ConnectionError => true | _ => false end.

(** [isinstance(e, TimeoutError)], the builtin. *)
Definition is_TimeoutError (e : exn) : bool :=
  match e with TimeoutError => true | _ => false end.

(** [isinstance(e, requests.HTTPError)] *)
Definition is_HTTPError (e : exn) : bool :=
  match e with HTTPError _ => true | _ => false end.

(** [isinstance(e, ValueError)] *)
Definition is_ValueError (e : exn) : bool :=
  match e with JSONDecodeError | ValueError _ => true | _ => false end.

(** ** Python's dynamic operations on JSON values *)

(** [bool(j)], as [not json_response] tests it. *)
Definition truthy (j : json) : bool :=
  match j with
  | JNull => false
  | JBool b => b
  | JInt z => negb (z =? 0)%Z
  | JFloat m _ => negb (m =? 0)%Z
  | JStr s => match s with EmptyString => false | _ => true end
  | JArr l => match l with [] => false | _ => true end
  | JObj o => negb (size o =? 0)%nat
  end.

(** [j[key]] for a [str] key. *)
Definition getitem (j : json) (key : string) : exn + json :=
  match j with
  | JObj o => match o !! key with Some v => inr v | None => inl (KeyError key) end
  | _ => inl TypeError
  end.

Definition is_str (key : string) (j : json) : bool :=
  match j with JStr s => String.eqb s key | _ => false end.

(** [key in j] for a [str] key: a key of a dict, an element of a list, a
    substring of a string; anything else is not iterable. *)
Definition contains (j : json) (key : string) : exn + bool :=
  match j with
  | JObj o => inr (bool_decide (is_Some (o !! key)))
  | JArr l => inr (existsb (is_str key) l)
  | JStr s => inr (match String.index 0 key s with Some _ => true | None => false end)
  | _ => inl TypeError
  end.

Fixpoint chars (s : string) : list json :=
  match s with
  | EmptyString => []
  | String a s' => JStr (String a EmptyString) :: chars s'
  end.

(** [products.extend(j)]: [j] is iterated. A dict yields its keys; the map
    keeps no insertion order, so they come in the map's own order, and
    [chars] cuts a string at every byte. No statement below is about a run
    that extends by a dict or a string. *)
Definition extend (products : list json) (j : json) : exn + list json :=
  match j with
  | JArr l => inr (products ++ l)
  | JStr s => inr (products ++ chars s)
  | JObj o => inr (products ++ (JStr <$> (map_to_list o).*1))
  | _ => inl TypeError
  end.

(** ** The objects and the effects *)

(** What [APIClient.__init__] sets up. A session is known by its position in
    the pool; [sessions] holds, per session, the number of [close()] calls it
    has received. *)
Record APIClient : Type := mkAPIClient {
  sessions : list nat;
  _timeout : Z;
  _max_retry : Z;
  _min_retry_time : Z;
  _max_retry_time : Z;
  _retry_time_multiplier : Z
}.

Inductive log_entry : Type :=
| InfoAttempt (attempt_number : Z) (api_url : json)  (* "Attempt #{n} at {api_url}" *)
| ErrorHTTP (status_code : Z)                        (* "HTTP Error {status_code}: {e}" *)
| ErrorInvalidJSON (e : exn)                         (* "Invalid JSON response: {e}" *)
| ErrorUnexpected (e : exn)                          (* "Unexpected error: {class}: {e}" *)
| ErrorFailedLoading (url : json)                    (* "Failed loading {url}" *)
| InfoLoadingComplete (n : nat).                     (* "Loading complete ({n} products)" *)

(** The service object together with the trace of its effects.
    [_current_page_url] is a JSON value: [load_data] stores whatever the
    server put under [href]. *)
Record state : Type := mkState {
  self : APIClient;
  _session : option nat;
  _current_page_url : json;
  requests_sent : nat;
  draws : nat;
  slept : list Z;
  log : list log_entry
}.

(** What the body of a response is to [Response.json()]: a value, or the
    exception it raises. *)
Record Response : Type := mkResponse {
  status_code : Z;
  json_ : exn + json
}.

Inductive reply : Type :=
| Raises (e : exn)
| Responds (r : Response).

Record world : Type := mkWorld {
  http_get : nat -> json -> reply;   (* the reply to the [t]-th GET, sent to this URL *)
  random_draw : nat -> nat           (* the [k]-th draw of [random.choice] *)
}.

(** ** The state-and-exception monad *)

Definition M (A : Type) : Type := state -> (exn + A) * state.

#[global] Instance M_ret : MRet M := λ A (a : A) st, (inr a, st).
#[global] Instance M_bind : MBind M := λ A B (f : A -> M B) (m : M A) st,
  match m st with
  | (inr a, st') => f a st'
  | (inl e, st') => (inl e, st')
  end.

Definition lift {A : Type} (r : exn + A) : M A := λ st, (r, st).

Definition get_state : M state := λ st, (inr st, st).

(** Exposes the matches behind the binds of a block of the monad. *)
Ltac unfold_M := unfold mbind, M_bind, mret, M_ret, lift.

(** The assignments and trace records, as functions on the state. *)
Definition add_log (entry : log_entry) (st : state) : state :=
  mkState (self st) (_session st) (_current_page_url st)
          (requests_sent st) (draws st) (slept st) (log st ++ [entry]).

Definition add_sleep (d : Z) (st : state) : state :=
  mkState (self st) (_session st) (_current_page_url st)
          (requests_sent st) (draws st) (slept st ++ [d]) (log st).

Definition with_session (s : nat) (st : state) : state :=
  mkState (self st) (Some s) (_current_page_url st)
          (requests_sent st) (draws st) (slept st) (log st).

Definition with_current_page_url (url : json) (st : state) : state :=
  mkState (self st) (_session st) url
          (requests_sent st) (draws st) (slept st) (log st).

Definition close_all (c : APIClient) : APIClient :=
  mkAPIClient (S <$> sessions c) (_timeout c) (_max_retry c)
              (_min_retry_time c) (_max_retry_time c) (_retry_time_multiplier c).

Definition with_sessions_closed (st : state) : state :=
  mkState (close_all (self st)) (_session st) (_current_page_url st)
          (requests_sent st) (draws st) (slept st) (log st).

(** [logger.info(...)], [logger.error(...)] *)
Definition logger (entry : log_entry) : M unit := λ st, (inr (), add_log entry st).

(** The blocking wait of [Retrying] between two attempts. *)
Definition sleep (d : Z) : M unit := λ st, (inr (), add_sleep d st).

Definition set_session (s : nat) : M unit := λ st, (inr (), with_session s st).

Definition set_current_page_url (url : json) : M unit := λ st,
  (inr (), with_current_page_url url st).

(** ** SessionManager *)

(** [__init__]: [nb_session] fresh sessions, none closed yet. *)
Definition SessionManager_init (nb_session : nat) : list nat := replicate nb_session 0.

(** [_get_session]: [random.choice(self.sessions)], which raises [IndexError]
    on an empty pool. *)
Definition _get_session (w : world) : M nat := λ st,
  match sessions (self st) with
  | [] => (inl IndexError, st)
  | _ :: _ =>
      (inr (random_draw w (draws st) `mod` length (sessions (self st))),
       mkState (self st) (_session st) (_current_page_url st)
               (requests_sent st) (S (draws st)) (slept st) (log st))
  end.

(** [_close_sessions]: [close()] on every session of the pool. *)
Definition _close_sessions : M unit := λ st, (inr (), with_sessions_closed st).

(** ** APIClient *)

(** [__init__]; [super().__init__()] builds the default pool of 3 sessions. *)
Definition APIClient_init
    (timeout max_retry min_retry_time max_retry_time retry_time_multiplier : Z)
    : exn + APIClient :=
  if (timeout <=? 0)%Z then inl (ValueError "Timeout must be positive")
  else inr (mkAPIClient (SessionManager_init 3) timeout max_retry
                        min_retry_time max_retry_time retry_time_multiplier).

(** *** The pieces of [tenacity] and [requests] that [_api_call] configures *)

(** [stop_after_attempt(n)]: stop once [attempt_number >= n]. *)
Definition stop_after_attempt (max_attempt_number attempt_number : Z) : bool :=
  (max_attempt_number <=? attempt_number)%Z.

(** [wait_exponential(multiplier, min, max)] with its default [exp_base=2],
    called with the number of the attempt that has just failed:
    [max(max(0, min), min(multiplier * 2 ** (attempt_number - 1), max))].
    tenacity holds [min] and [max] as floats, so the delay is this number
    exactly as long as it is below 2^53; the model computes on integers. *)
Definition wait_exponential (multiplier min max attempt_number : Z) : Z :=
  let exp := (2 ^ (attempt_number - 1))%Z in
  let result := (multiplier * exp)%Z in
  Z.max (Z.max 0 min) (Z.min result max).

(** [retry_if_exception_type((RequestException, ConnectionError, TimeoutError))] *)
Definition retry_if_exception_type (e : exn) : bool :=
  is_RequestException e || is_ConnectionError e || is_TimeoutError e.

(** [Response.raise_for_status()]: [HTTPError] for 400 <= status < 600. *)
Definition raise_for_status (r : Response) : exn + unit :=
  if ((400 <=? status_code r) && (status_code r <? 600))%Z
  then inl (HTTPError (status_code r)) else inr ().

(** [self._session.get(api_url, timeout=..., params=params)]: the next reply of
    the world. *)
Definition session_get (w : world) (api_url : json) : M Response := λ st,
  let st' := mkState (self st) (_session st) (_current_page_url st)
                     (S (requests_sent st)) (draws st) (slept st) (log st) in
  match http_get w (requests_sent st) api_url with
  | Raises e => (inl e, st')
  | Responds r => (inr r, st')
  end.

(** The body of [with attempt:]. *)
Definition attempt (w : world) (attempt_number : Z) (api_url : json) : M json :=
  s ← _get_session w;
  set_session s;;
  logger (InfoAttempt attempt_number api_url);;
  response ← session_get w api_url;
  lift (raise_for_status response);;
  lift (json_ response).

(** [for attempt in Retrying(stop, wait, retry)]: a value ends the loop; an
    exception the retry predicate rejects is raised again; otherwise the
    stop test decides between [RetryError] and sleeping before the next
    attempt. [remaining] is the structural measure [max_retry -
    attempt_number]: it is positive whenever the stop test fails (lemma
    [stop_after_attempt_remaining]), and more of it changes nothing (lemma
    [retrying_more_fuel]). *)
Fixpoint retrying (w : world) (remaining : nat) (attempt_number : Z) (api_url : json)
    : M json := λ st,
  match attempt w attempt_number api_url st with
  | (inr v, st1) => (inr v, st1)
  | (inl e, st1) =>
      if retry_if_exception_type e then
        if stop_after_attempt (_max_retry (self st1)) attempt_number
        then (inl (RetryError e), st1)
        else match remaining with
             | O => (inl (RetryError e), st1)
             | S remaining' =>
                 (sleep (wait_exponential (_retry_time_multiplier (self st1))
                                          (_min_retry_time (self st1))
                                          (_max_retry_time (self st1))
                                          attempt_number);;
                  retrying w remaining' (attempt_number + 1) api_url) st1
             end
      else (inl e, st1)
  end.

(** [_api_call] (with [params=None], as [load_data] calls it): the three
    handlers in their order, then [return None]. [Some j] is the return of
    [response.json()] and [None] the last line's; for a body [null] Python
    holds the same [None] in both cases, see [returned]. *)
Definition _api_call (w : world) (api_url : json) : M (option json) := λ st,
  match retrying w (Z.to_nat (_max_retry (self st) - 1)) 1 api_url st with
  | (inr v, st1) => (inr (Some v), st1)
  | (inl e, st1) =>
      ((match e with
        | HTTPError code => logger (ErrorHTTP code)
        | _ => if is_ValueError e then logger (ErrorInvalidJSON e)
               else logger (ErrorUnexpected e)
        end);;
       mret None) st1
  end.

(** ** PrixNcExctractService *)

Definition _nc_api : string := "https://prix.nc/api/v1/produits/".
Definition _init_page : Z := 0.

(** [__init__]: the first page's URL, then [APIClient.__init__()] with its
    defaults. *)
Definition PrixNcExctractService_init (bash_size : Z) : exn + state :=
  let url := _nc_api +:+ "?page=" +:+ pretty _init_page +:+ "&size=" +:+ pretty bash_size in
  match APIClient_init 5 3 2 10 1 with
  | inl e => inl e
  | inr c => inr (mkState c None (JStr url) 0 0 [] [])
  end.

(** What one turn of [while True] ends in. *)
Inductive loop_ctl : Type :=
| Continue (products : list json)
| Return (result : option (list json)).

Definition failed_loading : M loop_ctl :=
  st ← get_state;
  logger (ErrorFailedLoading (_current_page_url st));;
  mret (Return None).

(** The body of the loop below [json_response = self._api_call(...)]. *)
Definition merge_page (products : list json) (json_response : option json) : M loop_ctl :=
  match json_response with
  | None => failed_loading
  | Some j =>
      if negb (truthy j) then failed_loading
      else
        embedded ← lift (getitem j "_embedded");
        produits ← lift (getitem embedded "produits");
        products' ← lift (extend products produits);
        links ← lift (getitem j "_links");
        has_next ← lift (contains links "next");
        if has_next : bool then
          next ← lift (getitem links "next");
          href ← lift (getitem next "href");
          set_current_page_url href;;
          mret (Continue products')
        else
          logger (InfoLoadingComplete (length products'));;
          _close_sessions;;
          mret (Return (Some products'))
  end.

(** One turn of the loop of [load_data]. *)
Definition load_step (w : world) (products : list json) : M loop_ctl :=
  st ← get_state;
  json_response ← _api_call w (_current_page_url st);
  merge_page products json_response.

(** [while True]: the loop has no bound of its own, so the model takes fuel,
    one unit per page; [None] is "still running". *)
Fixpoint load_loop (w : world) (fuel : nat) (products : list json) (st : state)
    : option ((exn + option (list json)) * state) :=
  match fuel with
  | O => None
  | S fuel' =>
      match load_step w products st with
      | (inl e, st') => Some (inl e, st')
      | (inr (Return result), st') => Some (inr result, st')
      | (inr (Continue products'), st') => load_loop w fuel' products' st'
      end
  end.

(** [load_data]: [products = []], then the loop. *)
Definition load_data (w : world) (fuel : nat) (st : state)
    : option ((exn + option (list json)) * state) :=
  load_loop w fuel [] st.

(** [product.items()] *)
Definition items (product : json) : exn + gmap string json :=
  match product with
  | JObj o => inr o
  | _ => inl AttributeError
  end.

(** [{k: v for k, v in product.items() if k != "_links"}] *)
Definition clean (o : gmap string json) : gmap string json :=
  filter (λ kv : string * json, kv.1 ≠ "_links") o.

(** [cleaning_data]: the list comprehension, record by record. *)
Fixpoint cleaning_data (products : list json) : exn + list json :=
  match products with
  | [] => inr []
  | product :: rest =>
      match items product with
      | inl e => inl e
      | inr o =>
          match cleaning_data rest with
          | inl e => inl e
          | inr cleaned => inr (JObj (clean o) :: cleaned)
          end
      end
  end.

(** ** Vocabulary of the statements *)

(** What one attempt gets out of the world's [t]-th reply: the exception of
    the transport, of [raise_for_status] or of [json()], or the parsed value. *)
Definition attempt_reply (w : world) (t : nat) (api_url : json) : exn + json :=
  match http_get w t api_url with
  | Raises e => inl e
  | Responds r =>
      match raise_for_status r with
      | inl e => inl e
      | inr _ => json_ r
      end
  end.

(** The state an attempt leaves behind when the pool is not empty. *)
Definition after_attempt (w : world) (attempt_number : Z) (api_url : json) (st : state)
    : state :=
  mkState (self st)
          (Some (random_draw w (draws st) `mod` length (sessions (self st))))
          (_current_page_url st) (S (requests_sent st)) (S (draws st)) (slept st)
          (log st ++ [InfoAttempt attempt_number api_url]).

(** The record the handlers of [_api_call] log for an exception. *)
Definition log_error (e : exn) : log_entry :=
  match e with
  | HTTPError code => ErrorHTTP code
  | _ => if is_ValueError e then ErrorInvalidJSON e else ErrorUnexpected e
  end.

(** Values [products.extend] can iterate. *)
Definition iterable (j : json) : bool :=
  match j with
  | JArr _ | JStr _ | JObj _ => true
  | _ => false
  end.

(** The delays [Retrying] sleeps after attempts [a], [a+1], ..., [a+n-1]. *)
Definition delays (c : APIClient) (a : Z) (n : nat) : list Z :=
  (λ i : nat, wait_exponential (_retry_time_multiplier c) (_min_retry_time c)
                               (_max_retry_time c) (a + Z.of_nat i)) <$> seq 0 n.

(** The response envelope of the products endpoint:
    [{"_embedded": {"produits": records}, "_links": {"next": {"href": url}, ...}}],
    where [next] may be missing. Other keys may be present at every level. *)
Definition envelope (j : json) (records : list json) (next : option json) : Prop :=
  ∃ o e l : gmap string json,
    j = JObj o ∧ o !! "_embedded" = Some (JObj e) ∧ e !! "produits" = Some (JArr records) ∧
    o !! "_links" = Some (JObj l) ∧
    match next with
    | Some href => ∃ n : gmap string json, l !! "next" = Some (JObj n) ∧ n !! "href" = Some href
    | None => l !! "next" = None
    end.

(** What a run of the retry loop leaves in the state: the object is as it was
    but for [_session]; [n] delays were slept, after attempts [a .. a+n-1];
    with a pool that is not empty, [n+1] requests were sent. *)
Definition retry_trace (remaining : nat) (a : Z) (st st' : state) : Prop :=
  self st' = self st ∧ _current_page_url st' = _current_page_url st ∧
  ∃ n : nat, n ≤ remaining ∧
    slept st' = slept st ++ delays (self st) a n ∧
    (sessions (self st) ≠ [] → requests_sent st' = requests_sent st + S n).

(** The fetch of [url] that starts with attempt number [a] at the world's
    [t]-th reply obtains [j], and the world's next reply is the [t']-th:
    either the attempt succeeds, or it fails with an exception the retry
    predicate accepts while the stop test allows one more attempt, and the
    fetch goes on. *)
Inductive fetches (w : world) (max_retry : Z) : Z -> nat -> json -> json -> nat -> Prop :=
| fetches_now a t url j :
    attempt_reply w t url = inr j ->
    fetches w max_retry a t url j (S t)
| fetches_retry a t url e j t' :
    attempt_reply w t url = inl e ->
    retry_if_exception_type e = true ->
    stop_after_attempt max_retry a = false ->
    fetches w max_retry (a + 1) (S t) url j t' ->
    fetches w max_retry a t url j t'.

(** From its [t]-th reply on, the world serves [pages]: the fetch of [url]
    obtains the first page, every page but the last links to the URL of the
    next one, and the last page has no ["next"] link. *)
Inductive serves (w : world) (max_retry : Z) : nat -> json -> list (list json) -> Prop :=
| serves_last t url j records t' :
    fetches w max_retry 1 t url j t' ->
    envelope j records None ->
    serves w max_retry t url [records]
| serves_next t url j records href rest t' :
    fetches w max_retry 1 t url j t' ->
    envelope j records (Some href) ->
    serves w max_retry t' href rest ->
    serves w max_retry t url (records :: rest).

(** One turn of the loop of [load_data] that goes on to the next page. *)
Definition turn (w : world) (x y : list json * state) : Prop :=
  load_step w x.1 x.2 = (inr (Continue y.1), y.2).



(** ** Concrete runs *)

Definition page (records : list json) (next : option json) : json :=
  JObj {[ "_embedded" := JObj {[ "produits" := JArr records ]};
          "_links" := JObj (match next with
                            | Some href => {[ "next" := JObj {[ "href" := href ]} ]}
                            | None => ∅
                            end) ]}.

(** [PrixNcExctractService(bash_size=1000)], as the module's entry point builds it. *)
Definition service0 : state :=
  mkState (mkAPIClient [0; 0; 0] 5 3 2 10 1) None
          (JStr "https://prix.nc/api/v1/produits/?page=0&size=1000") 0 0 [] [].


(** The same service with [max_retry = 5]. *)
Definition service5 : state :=
  mkState (mkAPIClient [0; 0; 0] 5 5 2 10 1) None
          (JStr "https://prix.nc/api/v1/produits/?page=0&size=1000") 0 0 [] [].

(** Every GET is answered with this status and a body [json()] parses to [{}]. *)
Definition world_status (code : Z) : world :=
  mkWorld (λ _ _, Responds (mkResponse code (inr (JObj ∅)))) (λ k, k).

(** Every GET fails with this exception. *)
Definition world_raising (e : exn) : world :=
  mkWorld (λ _ _, Raises e) (λ k, k).

(** Every GET is answered 200 with a body on which [json()] raises [e]. *)
Definition world_unparsable (e : exn) : world :=
  mkWorld (λ _ _, Responds (mkResponse 200 (inl e))) (λ k, k).

Definition record1 : json := JObj {[ "id" := JInt 1; "_links" := JObj ∅ ]}.
Definition record2 : json := JObj {[ "id" := JInt 2; "_links" := JObj ∅ ]}.
Definition record3 : json := JObj {[ "id" := JInt 3 ]}.
Definition record4 : json := JObj {[ "id" := JInt 4; "nom" := JStr "riz" ]}.

Definition next_url : json := JStr "https://prix.nc/api/v1/produits/?page=1&size=1000".

(** Two pages of two records; the first GET times out, the second page has no
    ["next"] link. *)
Definition world_two_pages : world :=
  mkWorld (λ t _, match t with
                  | 0 => Raises ReadTimeout
                  | 1 => Responds (mkResponse 200 (inr (page [record1; record2] (Some next_url))))
                  | _ => Responds (mkResponse 200 (inr (page [record3; record4] None)))
                  end)
          (λ k, k).

(** The state in which the run of the default service on [world_two_pages]
    ends. *)
Definition two_pages_end : state :=
  Eval vm_compute in
    match load_data world_two_pages 2 service0 with
    | Some (_, st') => st'
    | None => service0
    end.

(** A first page with a ["next"] link, then [r] for every later GET. *)
Definition world_then (r : reply) : world :=
  mkWorld (λ t _, match t with
                  | 0 => Responds (mkResponse 200 (inr (page [record1; record2] (Some next_url))))
                  | _ => r
                  end)
          (λ k, k).

(** The state of the loop on [world_then r] after its first turn. *)
Definition second_turn (r : reply) : state :=
  with_current_page_url next_url
    (after_attempt (world_then r) 1 (_current_page_url service0) service0).

(** ** The entry point and the exporter's guard *)

(** [if not self.data] at the head of [JSONExporter.to_pdf]: an empty
    dataset is not exported. *)
Definition to_pdf_skips (data : list json) : bool :=
  match data with
  | [] => true
  | _ :: _ => false
  end.

(** What the block under [if __name__ == "__main__"] ends in. The exporter
    itself (pandas, reportlab) is not modelled: [ToPdf data filepath title] is
    the call [JSONExporter(data).to_pdf(filepath, title)]. *)
Inductive main_end : Type :=
| ToPdf (data : list json) (filepath title : string)
| DataLoadingFailed                      (* logger.error("Data loading failed") *)
| Uncaught (e : exn).

(** The entry point: [if (raw_products := service.load_data())] takes the
    [else] branch for [None] and for an empty list. *)
Definition main (w : world) (fuel : nat) : option main_end :=
  match PrixNcExctractService_init 1000 with
  | inl e => Some (Uncaught e)
  | inr service =>
      match load_data w fuel service with
      | None => None
      | Some (inl e, _) => Some (Uncaught e)
      | Some (inr (Some (product :: rest)), _) =>
          match cleaning_data (product :: rest) with
          | inl e => Some (Uncaught e)
          | inr cleaned => Some (ToPdf cleaned "produits_nc.pdf" "Here is the given title")
          end
      | Some (inr _, _) => Some DataLoadingFailed
      end
  end.

(** ** Further vocabulary *)

(** The Python value the caller of [_api_call] holds. There is one [None]:
    the body [null] parsed by [response.json()] and the [None] of the last
    line are the same value. *)
Definition returned (r : exn + option json) : json :=
  match r with
  | inr (Some j) => j
  | _ => JNull
  end.

(** The records [logger.info] writes for attempts [a], [a+1], ..., [a+k-1]. *)
Definition attempts_logged (a : Z) (api_url : json) (k : nat) : list log_entry :=
  (λ i : nat, InfoAttempt (a + Z.of_nat i) api_url) <$> seq 0 k.

Definition is_dict (j : json) : bool :=
  match j with
  | JObj _ => true
  | _ => false
  end.

(** A record without its ["_links"] field. *)
Definition clean_record (j : json) : json :=
  match j with
  | JObj o => JObj (clean o)
  | _ => j
  end.

(** [self._session], once set, is a session of the pool. *)
Definition session_in_pool (st : state) : Prop :=
  match _session st with
  | Some s => s < length (sessions (self st))
  | None => True
  end.

(** Every page has a ["next"] link: the GET of any URL, at any time, is
    answered with a page that links on. *)
Definition world_endless : world :=
  mkWorld (λ _ _, Responds (mkResponse 200 (inr (page [record3] (Some next_url)))))
          (λ k, k).

(** A single page without records and without ["next"] link. *)
Definition world_no_product : world :=
  mkWorld (λ _ _, Responds (mkResponse 200 (inr (page [] None)))) (λ k, k).

(** A first page, then a page whose ["next"] link is [next]. *)
Definition world_next_link (next : json) : world :=
  world_then (Responds (mkResponse 200 (inr
    (JObj {[ "_embedded" := JObj {[ "produits" := JArr [record3] ]};
             "_links" := JObj {[ "next" := next ]} ]})))).

(** The state of the loop on [world_two_pages] after its first turn. *)
Definition two_pages_second_turn : state :=
  Eval vm_compute in (load_step world_two_pages [] service0).2.

(** * Properties *)

(** ** Backoff arithmetic *)

Section backoff.
Variables multiplier min max : Z.
Local Open Scope Z_scope.

Lemma wait_exponential_lower a : min ≤ wait_exponential multiplier min max a.
Proof. unfold wait_exponential. lia. Qed.

Lemma wait_exponential_upper a :
  Z.max 0 min ≤ max → wait_exponential multiplier min max a ≤ max.
Proof. unfold wait_exponential. lia. Qed.


End backoff.

Lemma stop_after_attempt_remaining (max_retry a : Z) :
  stop_after_attempt max_retry a = false →
  Z.to_nat (max_retry - a) = S (Z.to_nat (max_retry - (a + 1))).
Proof. unfold stop_after_attempt. intros H%Z.leb_gt. lia. Qed.

Lemma delays_S c a n :
  delays c a (S n) =
  wait_exponential (_retry_time_multiplier c) (_min_retry_time c) (_max_retry_time c) a
    :: delays c (a + 1) n.
Proof.
  unfold delays. rewrite <- cons_seq, fmap_cons, <- fmap_S_seq, <- list_fmap_compose.
  f_equal; [f_equal; lia|]. apply list_fmap_ext. intros i x _. simpl. f_equal. lia.
Qed.


Lemma delays_length c a n : length (delays c a n) = n.
Proof. unfold delays. by rewrite length_fmap, length_seq. Qed.

(** ** One attempt *)

Lemma attempt_nonempty w a url st :
  sessions (self st) ≠ [] →
  attempt w a url st = (attempt_reply w (requests_sent st) url, after_attempt w a url st).
Proof.
  intros Hs. unfold attempt, attempt_reply, after_attempt, mbind, M_bind, _get_session.
  destruct (sessions (self st)) as [|s0 ss] eqn:E; [done|]. simpl.
  unfold session_get. simpl.
  destruct (http_get w (requests_sent st) url) as [e|r]; [done|].
  unfold lift. destruct (raise_for_status r); done.
Qed.

Lemma attempt_empty w a url st :
  sessions (self st) = [] → attempt w a url st = (inl IndexError, st).
Proof.
  intros Hs. unfold attempt, mbind, M_bind, _get_session. by rewrite Hs.
Qed.

(** ** The retry loop *)

Lemma retry_trace_done remaining a st st' :
  self st' = self st → _current_page_url st' = _current_page_url st →
  slept st' = slept st →
  (sessions (self st) ≠ [] → requests_sent st' = S (requests_sent st)) →
  retry_trace remaining a st st'.
Proof.
  intros Hself Hurl Hslept Hreq. repeat split; try done.
  exists 0. simpl. rewrite app_nil_r. repeat split; [lia|done|].
  intros Hs. rewrite Hreq by done. lia.
Qed.

Lemma retrying_trace w remaining : ∀ a url st,
  retry_trace remaining a st (retrying w remaining a url st).2.
Proof.
  induction remaining as [|remaining IH]; intros a url st; simpl;
    (destruct (decide (sessions (self st) = [])) as [Hs|Hs];
     [rewrite attempt_empty by done; by apply retry_trace_done|]);
    rewrite attempt_nonempty by done;
    (assert (∀ k, retry_trace k a st (after_attempt w a url st)) as Hdone
       by (intros k; by apply retry_trace_done));
    (destruct (attempt_reply w (requests_sent st) url) as [e|v]; [|done]);
    (destruct (retry_if_exception_type e); [|done]);
    (destruct (stop_after_attempt _ a); [done|]); [done|].
  unfold mbind, M_bind, sleep. simpl.
  match goal with |- retry_trace _ _ _ (retrying _ _ _ _ ?s).2 =>
    destruct (IH (a + 1)%Z url s) as (Hself & Hurl & n & Hn & Hslept & Hreq) end.
  simpl in *. repeat split; try done. exists (S n). repeat split; [lia| |].
  - by rewrite Hslept, delays_S, <- app_assoc.
  - intros _. rewrite Hreq by done. lia.
Qed.


Lemma attempt_self w a url st : self (attempt w a url st).2 = self st.
Proof.
  destruct (decide (sessions (self st) = [])) as [Hs|Hs].
  - by rewrite attempt_empty.
  - by rewrite attempt_nonempty.
Qed.

(** Fuel beyond [max_retry - attempt_number] changes nothing: the stop test
    ends the loop before [remaining] runs out. *)
Lemma retrying_more_fuel w remaining : ∀ a url st extra,
  Z.to_nat (_max_retry (self st) - a) ≤ remaining →
  retrying w (remaining + extra) a url st = retrying w remaining a url st.
Proof.
  induction remaining as [|remaining IH]; intros a url st extra Hfuel.
  - destruct extra as [|extra]; [done|]. simpl.
    pose proof (attempt_self w a url st) as Hself.
    destruct (attempt w a url st) as [[e|v] st1]; [|done]. simpl in Hself.
    destruct (retry_if_exception_type e); [|done].
    rewrite Hself. unfold stop_after_attempt.
    destruct (Z.leb_spec (_max_retry (self st)) a); [done|lia].
  - simpl. pose proof (attempt_self w a url st) as Hself.
    destruct (attempt w a url st) as [[e|v] st1]; [|done]. simpl in Hself.
    destruct (retry_if_exception_type e); [|done].
    destruct (stop_after_attempt _ a); [done|].
    unfold mbind, M_bind, sleep. rewrite IH; [done|]. simpl. rewrite Hself. lia.
Qed.

(** When every reply fails with an exception the retry predicate accepts, the
    loop runs until the stop test ends it. *)
Lemma retrying_exhausted w remaining : ∀ a url st,
  sessions (self st) ≠ [] →
  remaining = Z.to_nat (_max_retry (self st) - a) →
  (∀ t, requests_sent st ≤ t →
        ∃ e, attempt_reply w t url = inl e ∧ retry_if_exception_type e = true) →
  ∃ e st', retrying w remaining a url st = (inl (RetryError e), st') ∧
           requests_sent st' = requests_sent st + S remaining.
Proof.
  induction remaining as [|remaining IH]; intros a url st Hs Hrem Hw; simpl;
    rewrite attempt_nonempty by done;
    destruct (Hw (requests_sent st) (Nat.le_refl _)) as (e & -> & ->).
  - exists e, (after_attempt w a url st). split; [|simpl; lia].
    by destruct (stop_after_attempt _ a).
  - simpl. assert (stop_after_attempt (_max_retry (self st)) a = false) as ->.
    { unfold stop_after_attempt. apply Z.leb_gt. lia. }
    unfold mbind, M_bind, sleep. simpl.
    match goal with |- context [retrying _ _ _ _ ?s] =>
      destruct (IH (a + 1)%Z url s) as (e' & st' & -> & Hreq) end; simpl; try done.
    + lia.
    + intros t Ht. apply Hw. lia.
    + exists e', st'. split; [done|]. simpl in Hreq. lia.
Qed.

(** A fetch that obtains its page, after retries or not. *)
Lemma retrying_fetches w max_retry a t url j t' :
  fetches w max_retry a t url j t' →
  ∀ st, sessions (self st) ≠ [] → requests_sent st = t → _max_retry (self st) = max_retry →
    ∃ st', retrying w (Z.to_nat (max_retry - a)) a url st = (inr j, st') ∧
           self st' = self st ∧ _current_page_url st' = _current_page_url st ∧
           requests_sent st' = t'.
Proof.
  induction 1 as [a t url j Hj | a t url e j t' He Hretry Hstop _ IH];
    intros st Hs Ht Hmax; subst t.
  - exists (after_attempt w a url st). split; [|done].
    destruct (Z.to_nat _); simpl; by rewrite attempt_nonempty, Hj.
  - rewrite (stop_after_attempt_remaining _ _ Hstop). simpl.
    rewrite attempt_nonempty, He, Hretry by done. simpl. rewrite Hmax, Hstop.
    unfold mbind, M_bind, sleep.
    destruct (IH (add_sleep
                    (wait_exponential (_retry_time_multiplier (self st))
                       (_min_retry_time (self st)) (_max_retry_time (self st)) a)
                    (after_attempt w a url st))) as (st' & Hrun & Hself & Hurl & Hreq);
      try done.
    exists st'. by rewrite Hrun.
Qed.

(** ** [_api_call] *)

Lemma api_call_unfold w url st :
  _api_call w url st =
  match retrying w (Z.to_nat (_max_retry (self st) - 1)) 1 url st with
  | (inr v, st1) => (inr (Some v), st1)
  | (inl e, st1) => (inr None, add_log (log_error e) st1)
  end.
Proof.
  unfold _api_call. destruct (retrying _ _ _ _ _) as [[e|v] st1]; [|done].
  destruct e; done.
Qed.

(** The handlers catch every exception: [_api_call] returns. *)
Lemma api_call_total w url st :
  ∃ r st', _api_call w url st = (inr r, st').
Proof.
  rewrite api_call_unfold. destruct (retrying _ _ _ _ _) as [[e|v] st1]; eauto.
Qed.

Lemma api_call_trace w url st :
  retry_trace (Z.to_nat (_max_retry (self st) - 1)) 1 st (_api_call w url st).2.
Proof.
  rewrite api_call_unfold.
  pose proof (retrying_trace w (Z.to_nat (_max_retry (self st) - 1)) 1%Z url st) as H.
  destruct (retrying _ _ _ _ _) as [[e|v] st1]; done.
Qed.

(** An exception the retry predicate rejects ends the fetch at once. *)
Lemma api_call_fatal w url st e :
  sessions (self st) ≠ [] →
  attempt_reply w (requests_sent st) url = inl e →
  retry_if_exception_type e = false →
  _api_call w url st = (inr None, add_log (log_error e) (after_attempt w 1 url st)).
Proof.
  intros Hs He Hr. rewrite api_call_unfold.
  destruct (Z.to_nat _); simpl; rewrite attempt_nonempty, He, Hr; done.
Qed.

(** Exceptions the retry predicate accepts use up [max(1, max_retry)] attempts. *)
Lemma api_call_exhausted w url st :
  sessions (self st) ≠ [] →
  (∀ t, requests_sent st ≤ t →
        ∃ e, attempt_reply w t url = inl e ∧ retry_if_exception_type e = true) →
  ∃ st', _api_call w url st = (inr None, st') ∧
         requests_sent st' = requests_sent st + Z.to_nat (Z.max 1 (_max_retry (self st))).
Proof.
  intros Hs Hw. rewrite api_call_unfold.
  destruct (retrying_exhausted w _ 1%Z url st Hs eq_refl Hw) as (e & st' & -> & Hreq).
  eexists. split; [done|]. simpl. lia.
Qed.

Lemma api_call_fetches w url st j t' :
  sessions (self st) ≠ [] →
  fetches w (_max_retry (self st)) 1 (requests_sent st) url j t' →
  ∃ st', _api_call w url st = (inr (Some j), st') ∧
         self st' = self st ∧ _current_page_url st' = _current_page_url st ∧
         requests_sent st' = t'.
Proof.
  intros Hs Hfetch.
  destruct (retrying_fetches _ _ _ _ _ _ _ Hfetch st) as (st' & Hrun & Hrest); try done.
  exists st'. by rewrite api_call_unfold, Hrun.
Qed.

(** *** Construction *)

(** C9. For every retry configuration with [timeout > 0] the construction of
    the fetcher succeeds, and for [timeout <= 0] it fails with the
    invalid-configuration error, which [APIClient.__init__] raises as
    [ValueError("Timeout must be positive")]; no other exception crosses the
    component's boundary: [_api_call] always returns, a value or [None]. *)
Theorem APIClient_init_timeout
    timeout max_retry min_retry_time max_retry_time retry_time_multiplier :
  let construct := APIClient_init timeout max_retry min_retry_time max_retry_time
                                  retry_time_multiplier in
  ((0 < timeout)%Z →
     construct = inr (mkAPIClient [0; 0; 0] timeout max_retry min_retry_time max_retry_time
                                  retry_time_multiplier)) ∧
  ((timeout ≤ 0)%Z → construct = inl (ValueError "Timeout must be positive")) ∧
  (∀ w url st, ∃ r st', _api_call w url st = (inr r, st')).
Proof.
  intros construct. subst construct. unfold APIClient_init. repeat split.
  - intros Ht. destruct (Z.leb_spec timeout 0); [lia|done].
  - intros Ht. destruct (Z.leb_spec timeout 0); [done|lia].
  - apply api_call_total.
Qed.

Example PrixNcExctractService_init_1000 : PrixNcExctractService_init 1000 = inr service0.
Proof. reflexivity. Qed.

(** *** Which failures are retried *)

(** [HTTPError] is a [RequestException]: the retry predicate accepts every
    status that [raise_for_status] turns into an exception. *)
Lemma http_error_is_retried code : retry_if_exception_type (HTTPError code) = true.
Proof. done. Qed.

(** X2. So a URL that keeps answering 4xx or 5xx, 404 and 429 alike, is asked
    [max(1, max_retry)] times, and the fetch returns [None]. *)
Lemma api_call_http_errors_exhaust w url st :
  sessions (self st) ≠ [] →
  (∀ t, requests_sent st ≤ t →
        ∃ r, http_get w t url = Responds r ∧ (400 ≤ status_code r < 600)%Z) →
  ∃ st', _api_call w url st = (inr None, st') ∧
         requests_sent st' = requests_sent st + Z.to_nat (Z.max 1 (_max_retry (self st))).
Proof.
  intros Hs Hw. apply api_call_exhausted; [done|].
  intros t Ht. destruct (Hw t Ht) as (r & Hr & Hcode).
  exists (HTTPError (status_code r)). split; [|done].
  unfold attempt_reply, raise_for_status. rewrite Hr.
  destruct (Z.leb_spec 400 (status_code r)); [|lia].
  destruct (Z.ltb_spec (status_code r) 600); [done|lia].
Qed.

(** C1. The specification has a 4xx status other than 429 end the fetch after
    one attempt, and a 429 retried for up to [max_retry - 1] more attempts.
    The code retries both alike. At an endpoint that answers 404 to every GET
    the default service ([max_retry = 3]) sends three requests and sleeps
    twice, and what reaches the handlers is tenacity's [RetryError], logged by
    [except Exception]. *)
Theorem status_404_is_retried :
  let url := _current_page_url service0 in
  let run := _api_call (world_status 404) url service0 in
  run.1 = inr None ∧
  requests_sent run.2 = 3 ∧
  slept run.2 = [2; 2]%Z ∧
  log run.2 = [InfoAttempt 1 url; InfoAttempt 2 url; InfoAttempt 3 url;
               ErrorUnexpected (RetryError (HTTPError 404))].
Proof. vm_compute. done. Qed.

(** The 429 half of C1 holds: two more attempts after the first. *)
Example status_429_is_retried :
  requests_sent (_api_call (world_status 429) (_current_page_url service0) service0).2 = 3.
Proof. reflexivity. Qed.

(** X3. A plain [ValueError] out of [json()] is not retried and gets the
    record of [except ValueError]. *)
Lemma api_call_plain_value_error w url st msg :
  sessions (self st) ≠ [] →
  attempt_reply w (requests_sent st) url = inl (ValueError msg) →
  _api_call w url st =
    (inr None, add_log (ErrorInvalidJSON (ValueError msg)) (after_attempt w 1 url st)).
Proof. intros Hs He. by rewrite (api_call_fatal _ _ _ (ValueError msg)). Qed.

(** C5. The specification has a 2xx response whose body does not parse end
    the fetch after that attempt, reported apart from network failures. But
    [requests.exceptions.JSONDecodeError] is a [RequestException]: at an
    endpoint that answers 200 with such a body to every GET the default
    service sends three requests and logs the same kind of record as for
    three connection errors. *)
Theorem unparsable_body_is_retried :
  let url := _current_page_url service0 in
  let run := _api_call (world_unparsable JSONDecodeError) url service0 in
  let net := _api_call (world_raising ConnectionError) url service0 in
  run.1 = inr None ∧
  requests_sent run.2 = 3 ∧
  log run.2 = [InfoAttempt 1 url; InfoAttempt 2 url; InfoAttempt 3 url;
               ErrorUnexpected (RetryError JSONDecodeError)] ∧
  log net.2 = [InfoAttempt 1 url; InfoAttempt 2 url; InfoAttempt 3 url;
               ErrorUnexpected (RetryError ConnectionError)].
Proof. vm_compute. done. Qed.

(** *** Backoff delays *)



(** A fetch with [max_retry = 5] that never gets through: five requests, and
    the four delays between them. *)
Example backoff_delays_service5 :
  let st' := (_api_call (world_raising ConnectionError) (_current_page_url service5)
                        service5).2 in
  requests_sent st' = 5 ∧ slept st' = [2; 2; 4; 8]%Z.
Proof. split; reflexivity. Qed.

(** A fetch that gets through at once sleeps nothing. *)
Example backoff_none_on_success :
  let st' := (_api_call world_no_product (_current_page_url service5) service5).2 in
  requests_sent st' = 1 ∧ slept st' = [].
Proof. split; reflexivity. Qed.

(** ** One turn of the pagination loop *)

Lemma truthy_JObj_lookup (o : gmap string json) k v :
  o !! k = Some v → truthy (JObj o) = true.
Proof.
  intros Hk. simpl. destruct (size o) eqn:E; [|done].
  apply map_size_empty_inv in E. subst o. by rewrite lookup_empty in Hk.
Qed.

Lemma envelope_truthy j records next : envelope j records next → truthy j = true.
Proof. intros (o & e & l & -> & He & _). by eapply truthy_JObj_lookup. Qed.

Lemma envelope_page records next : envelope (page records next) records next.
Proof.
  unfold envelope, page. eexists _, _, _. split; [done|].
  split; [done|]. split; [done|]. split; [done|].
  destruct next as [href|]; [|done]. by eexists.
Qed.

Lemma load_step_unfold w products st :
  load_step w products st =
  merge_page products
    (match (_api_call w (_current_page_url st) st).1 with inr r => r | inl _ => None end)
    (_api_call w (_current_page_url st) st).2.
Proof.
  unfold load_step, mbind, M_bind, get_state.
  destruct (api_call_total w (_current_page_url st) st) as (r & st1 & ->). done.
Qed.

Lemma merge_page_next products st j records href :
  envelope j records (Some href) →
  merge_page products (Some j) st =
    (inr (Continue (products ++ records)), with_current_page_url href st).
Proof.
  intros Henv. unfold merge_page. rewrite (envelope_truthy _ _ _ Henv). simpl.
  destruct Henv as (o & e & l & -> & He & Hp & Hl & n & Hn & Hh).
  unfold_M; unfold getitem. rewrite He, Hp. simpl. rewrite Hl. simpl.
  rewrite Hn. rewrite bool_decide_true by eauto. by rewrite Hh.
Qed.

Lemma merge_page_last products st j records :
  envelope j records None →
  merge_page products (Some j) st =
    (inr (Return (Some (products ++ records))),
     with_sessions_closed (add_log (InfoLoadingComplete (length (products ++ records))) st)).
Proof.
  intros Henv. unfold merge_page. rewrite (envelope_truthy _ _ _ Henv). simpl.
  destruct Henv as (o & e & l & -> & He & Hp & Hl & Hn).
  unfold_M; unfold getitem. rewrite He, Hp. simpl. rewrite Hl. simpl.
  rewrite Hn. rewrite bool_decide_false; [done|]. by intros [? ?].
Qed.

(** Only the return of a list closes the pool. *)
Lemma merge_page_self products json_response st :
  match merge_page products json_response st with
  | (inr (Return (Some _)), st') => self st' = close_all (self st)
  | (_, st') => self st' = self st
  end.
Proof.
  unfold merge_page; unfold_M.
  destruct json_response as [j|]; [|done]. destruct (truthy j); [|done]. simpl.
  repeat (case_match; simplify_eq/=); done.
Qed.

Lemma load_step_self w products st :
  match load_step w products st with
  | (inr (Return (Some _)), st') => self st' = close_all (self st)
  | (_, st') => self st' = self st
  end.
Proof.
  rewrite load_step_unfold.
  destruct (api_call_trace w (_current_page_url st) st) as (<- & _).
  apply merge_page_self.
Qed.

(** ** The pagination loop *)

Lemma load_loop_serves w max_retry t url pages :
  serves w max_retry t url pages →
  ∀ products st,
    requests_sent st = t → _current_page_url st = url → _max_retry (self st) = max_retry →
    sessions (self st) ≠ [] →
    ∃ st', (∀ fuel, length pages ≤ fuel →
              load_loop w fuel products st = Some (inr (Some (products ++ concat pages)), st')) ∧
           sessions (self st') = S <$> sessions (self st).
Proof.
  induction 1 as [t url j records t' Hj Henv | t url j records href rest t' Hj Henv _ IH];
    intros products st Ht Hu Hmax Hs; subst t url max_retry;
    destruct (api_call_fetches _ _ _ _ _ Hs Hj) as (st1 & Hcall & Hself & Hurl & Hreq).
  - eexists. split.
    + intros [|fuel] Hf; [simpl in Hf; lia|]. simpl.
      rewrite load_step_unfold, Hcall. cbn [fst snd].
      rewrite (merge_page_last _ _ _ records) by done. by rewrite app_nil_r.
    + simpl. by rewrite Hself.
  - destruct (IH (products ++ records) (with_current_page_url href st1))
      as (st' & Hrun & Hclosed); simpl; try done; try congruence.
    exists st'. split.
    + intros [|fuel] Hf; [simpl in Hf; lia|]. simpl.
      rewrite load_step_unfold, Hcall. cbn [fst snd].
      rewrite (merge_page_next _ _ _ records href) by done.
      rewrite Hrun by (simpl in Hf; lia). by rewrite <- app_assoc.
    + simpl in Hclosed. by rewrite Hclosed, Hself.
Qed.

Lemma length_concat_uniform (pages : list (list json)) k :
  Forall (λ records, length records = k) pages →
  length (concat pages) = length pages * k.
Proof.
  induction 1 as [|records pages Hk _ IH]; [done|].
  simpl. rewrite length_app, IH, Hk. lia.
Qed.

Lemma load_loop_turns w n x y :
  nsteps (turn w) n x y →
  ∀ fuel, load_loop w (n + fuel) x.1 x.2 = load_loop w fuel y.1 y.2.
Proof.
  induction 1 as [x | n x y z Hturn _ IH]; intros fuel; [done|].
  simpl. unfold turn in Hturn. rewrite Hturn. apply IH.
Qed.

(** After [n] turns that went on, a turn that ends the loop decides the
    result for every fuel above [n]. *)
Lemma load_loop_after_turns w n x y result st' :
  nsteps (turn w) n x y →
  load_step w y.1 y.2 = (result, st') →
  (∀ products', result ≠ inr (Continue products')) →
  ∀ fuel, n < fuel →
    load_loop w fuel x.1 x.2 =
      Some (match result with
            | inl e => inl e
            | inr (Return r) => inr r
            | inr (Continue _) => inr None
            end, st').
Proof.
  intros Hturns Hlast Hends fuel Hfuel.
  replace fuel with (n + S (fuel - S n)) by lia.
  rewrite (load_loop_turns _ _ _ _ Hturns).
  simpl. rewrite Hlast. destruct result as [e|[products'|r]]; [done| |done].
  by destruct (Hends products').
Qed.

(** X1. A run that returns a list has closed every session once more; a run
    that returns [None] or raises has closed none. *)
Lemma load_loop_sessions w fuel : ∀ products st r st',
  load_loop w fuel products st = Some (r, st') →
  sessions (self st') =
    match r with
    | inr (Some _) => S <$> sessions (self st)
    | _ => sessions (self st)
    end.
Proof.
  induction fuel as [|fuel IH]; intros products st r st' Hrun; [done|].
  simpl in Hrun. pose proof (load_step_self w products st) as Hstep.
  destruct (load_step w products st) as [[e|[products'|[result|]]] st1]; simplify_eq/=.
  - by rewrite Hstep.
  - apply IH in Hrun. by rewrite Hstep in Hrun.
  - by rewrite Hstep.
  - by rewrite Hstep.
Qed.

(** C2. For every sequence of [n] pages of [k] records each, where each page
    links to the next and the last page has no next link, [load_data] returns
    (given fuel for [n] turns) the records of the pages in page order and,
    within a page, in the page's order: [n * k] records. The pool holds at
    least one session, and every page is obtained by its fetch, at the first
    attempt or after retried failures. *)
Theorem load_data_returns_all_pages w st pages k :
  sessions (self st) ≠ [] →
  serves w (_max_retry (self st)) (requests_sent st) (_current_page_url st) pages →
  Forall (λ records, length records = k) pages →
  ∃ st', (∀ fuel, length pages ≤ fuel →
            load_data w fuel st = Some (inr (Some (concat pages)), st')) ∧
         length (concat pages) = length pages * k.
Proof.
  intros Hs Hserves Hk.
  destruct (load_loop_serves _ _ _ _ _ Hserves [] st) as (st' & Hrun & _); try done.
  exists st'. split; [exact Hrun|]. by apply length_concat_uniform.
Qed.

Lemma load_data_returns_all_pages_witness :
  ∃ st', (∀ fuel, 2 ≤ fuel →
            load_data world_two_pages fuel service0 =
              Some (inr (Some [record1; record2; record3; record4]), st')) ∧
         length [record1; record2; record3; record4] = 2 * 2.
Proof.
  apply (load_data_returns_all_pages world_two_pages service0
           [[record1; record2]; [record3; record4]] 2).
  - simpl. discriminate.
  - eapply serves_next; [| apply envelope_page |].
    + eapply fetches_retry; [reflexivity..|]. apply fetches_now. reflexivity.
    + eapply serves_last; [apply fetches_now; reflexivity | apply envelope_page].
  - repeat constructor.
Defined.

(** C3. Whenever a page fetch fails ([_api_call] returns [None], after a
    fatal exception or with the attempts used up), [load_data] returns [None]
    and no record, whatever the [n] earlier turns have put into [products]. *)
Theorem load_data_fetch_failure w st0 n products st :
  nsteps (turn w) n ([], st0) (products, st) →
  (_api_call w (_current_page_url st) st).1 = inr None →
  ∀ fuel, n < fuel →
    let st1 := (_api_call w (_current_page_url st) st).2 in
    load_data w fuel st0 =
      Some (inr None, add_log (ErrorFailedLoading (_current_page_url st1)) st1).
Proof.
  intros Hturns Hfail fuel Hfuel st1.
  apply (load_loop_after_turns _ _ _ _ (inr (Return None)) _ Hturns); [|done..].
  cbn [fst snd]. by rewrite load_step_unfold, Hfail.
Qed.

Lemma load_data_fetch_failure_witness :
  let w := world_then (Responds (mkResponse 404 (inr (JObj ∅)))) in
  let st1 := (_api_call w next_url (second_turn (Responds (mkResponse 404 (inr (JObj ∅)))))).2 in
  load_data w 2 service0 = Some (inr None, add_log (ErrorFailedLoading next_url) st1).
Proof.
  apply (load_data_fetch_failure (world_then (Responds (mkResponse 404 (inr (JObj ∅)))))
           service0 1 [record1; record2]
           (second_turn (Responds (mkResponse 404 (inr (JObj ∅)))))).
  - apply nsteps_once. vm_compute. reflexivity.
  - vm_compute. reflexivity.
  - lia.
Defined.

(** C6. The specification has the pool torn down exactly once, on terminal
    failure as on success. At an endpoint whose every GET fails with a
    connection error the run of the default service returns [None] after
    three requests with no session closed ([load_loop_sessions] is the general
    fact: only the return of a list closes the pool). *)
Theorem failed_run_leaves_pool_open :
  let run := load_data (world_raising ConnectionError) 1 service0 in
  ∃ st', run = Some (inr None, st') ∧ requests_sent st' = 3 ∧ sessions (self st') = [0; 0; 0].
Proof. eexists. vm_compute. done. Qed.

(** On the two pages of [world_two_pages] every session is closed once. *)
Example successful_run_closes_pool :
  ∃ r st', load_data world_two_pages 2 service0 = Some (r, st') ∧
           sessions (self st') = [1; 1; 1].
Proof. do 2 eexists. vm_compute. done. Qed.

(** C10. When a fetch succeeds but a truthy envelope lacks the ["_embedded"]
    key, the ["produits"] key inside it, or (with a list under ["produits"]
    that can be iterated) the ["_links"] key, [load_data] raises [KeyError]
    to its caller, in whatever turn of the loop this happens; when the parsed
    value is falsy, [load_data] returns [None]. *)
Theorem load_data_malformed_page w st0 n products st j :
  nsteps (turn w) n ([], st0) (products, st) →
  (_api_call w (_current_page_url st) st).1 = inr (Some j) →
  ∀ fuel, n < fuel →
    let st1 := (_api_call w (_current_page_url st) st).2 in
    (truthy j = false →
       load_data w fuel st0 =
         Some (inr None, add_log (ErrorFailedLoading (_current_page_url st1)) st1)) ∧
    (∀ o, j = JObj o → o ≠ ∅ → o !! "_embedded" = None →
       load_data w fuel st0 = Some (inl (KeyError "_embedded"), st1)) ∧
    (∀ o e, j = JObj o → o !! "_embedded" = Some (JObj e) → e !! "produits" = None →
       load_data w fuel st0 = Some (inl (KeyError "produits"), st1)) ∧
    (∀ o e p, j = JObj o → o !! "_embedded" = Some (JObj e) → e !! "produits" = Some p →
       iterable p = true → o !! "_links" = None →
       load_data w fuel st0 = Some (inl (KeyError "_links"), st1)).
Proof.
  intros Hturns Hj fuel Hfuel st1.
  assert (load_step w products st = merge_page products (Some j) st1) as Hstep.
  { by rewrite load_step_unfold, Hj. }
  assert (∀ key, merge_page products (Some j) st1 = (inl (KeyError key), st1) →
                 load_data w fuel st0 = Some (inl (KeyError key), st1)) as Hraise.
  { intros key Hmerge.
    apply (load_loop_after_turns _ _ _ _ (inl (KeyError key)) _ Hturns); [|done..].
    cbn [fst snd]. by rewrite Hstep. }
  repeat split.
  - intros Hfalsy.
    apply (load_loop_after_turns _ _ _ _ (inr (Return None)) _ Hturns); [|done..].
    cbn [fst snd]. rewrite Hstep. unfold merge_page. by rewrite Hfalsy.
  - intros o -> Hne Ho. apply Hraise. unfold merge_page.
    assert (truthy (JObj o) = true) as ->.
    { simpl. destruct (size o) eqn:E; [|done]. by apply map_size_empty_inv in E. }
    simpl. unfold_M. simpl. by rewrite Ho.
  - intros o e -> Ho He. apply Hraise. unfold merge_page.
    rewrite (truthy_JObj_lookup _ _ _ Ho).
    simpl. unfold_M. simpl. rewrite Ho. simpl. by rewrite He.
  - intros o e p -> Ho He Hp Hl. apply Hraise. unfold merge_page.
    rewrite (truthy_JObj_lookup _ _ _ Ho).
    simpl. unfold_M. simpl. rewrite Ho. simpl. rewrite He.
    destruct p; try discriminate; simpl; by rewrite Hl.
Qed.

Lemma load_data_malformed_page_witness :
  let run j := load_data (world_then (Responds (mkResponse 200 (inr j)))) 2 service0 in
  (∃ st', run (JObj ∅) = Some (inr None, st')) ∧
  (∃ st', run (JObj {[ "total" := JInt 0 ]}) = Some (inl (KeyError "_embedded"), st')) ∧
  (∃ st', run (JObj {[ "_embedded" := JObj ∅ ]}) = Some (inl (KeyError "produits"), st')) ∧
  (∃ st', run (JObj {[ "_embedded" := JObj {[ "produits" := JArr [record3] ]} ]}) =
            Some (inl (KeyError "_links"), st')).
Proof.
  assert (∀ j, nsteps (turn (world_then (Responds (mkResponse 200 (inr j))))) 1
                      ([], service0)
                      ([record1; record2], second_turn (Responds (mkResponse 200 (inr j)))))
    as Hturn.
  { intros j. apply nsteps_once. vm_compute. reflexivity. }
  pose proof (λ j,
    load_data_malformed_page (world_then (Responds (mkResponse 200 (inr j))))
      service0 1 [record1; record2] (second_turn (Responds (mkResponse 200 (inr j)))) j
      (Hturn j) eq_refl 2 (le_n 2)) as H.
  intros run. repeat split; eexists.
  - apply (H (JObj ∅)). reflexivity.
  - eapply (H _); [reflexivity | | reflexivity].
    intros Hempty. apply (f_equal (λ m : gmap string json, m !! "total")) in Hempty.
    discriminate Hempty.
  - eapply (H _); reflexivity.
  - eapply (H _); reflexivity.
Defined.

(** ** The record cleaner *)

Lemma clean_lookup_links o : clean o !! "_links" = None.
Proof. unfold clean. apply map_lookup_filter_None. right. intros x _ H. by apply H. Qed.

Lemma clean_lookup_other o k : k ≠ "_links" → clean o !! k = o !! k.
Proof.
  intros Hk. unfold clean. rewrite map_lookup_filter.
  destruct (o !! k) as [v|]; [|done]. simpl. by rewrite option_guard_True.
Qed.

Lemma clean_without_links o : o !! "_links" = None → clean o = o.
Proof.
  intros Ho. unfold clean. apply map_filter_id. intros k v Hk Heq. simpl in Heq. congruence.
Qed.

Lemma clean_idempotent o : clean (clean o) = clean o.
Proof. apply clean_without_links, clean_lookup_links. Qed.

Lemma cleaning_data_records (records : list (gmap string json)) :
  cleaning_data (JObj <$> records) = inr (JObj <$> (clean <$> records)).
Proof.
  induction records as [|r records IH]; [done|].
  rewrite !fmap_cons. cbn [cleaning_data items]. by rewrite IH.
Qed.

(** C7. For every list of raw records the cleaner returns a list of the same
    length in the same order; the [i]-th output has no ["_links"] field and
    agrees with the [i]-th input on every other field; a record without
    ["_links"] comes out unchanged, and nothing is raised. *)
Theorem cleaning_data_spec (records : list (gmap string json)) :
  ∃ cleaned : list (gmap string json),
    cleaning_data (JObj <$> records) = inr (JObj <$> cleaned) ∧
    length cleaned = length records ∧
    ∀ i r, records !! i = Some r →
      ∃ c, cleaned !! i = Some c ∧
           c !! "_links" = None ∧
           (∀ k, k ≠ "_links" → c !! k = r !! k) ∧
           (r !! "_links" = None → c = r).
Proof.
  exists (clean <$> records). split; [apply cleaning_data_records|].
  split; [apply length_fmap|].
  intros i r Hr. exists (clean r). split; [by rewrite list_lookup_fmap, Hr|].
  split; [apply clean_lookup_links|]. split; [intros k; apply clean_lookup_other|].
  apply clean_without_links.
Qed.

(** The docstring's example: [{"_links": {...}, "id": 1}] cleans to [{"id": 1}]. *)
Example cleaning_data_scenario :
  cleaning_data [JObj {[ "_links" := JObj {[ "self" := JStr "/produits/1" ]}; "id" := JInt 1 ]}]
  = inr [JObj {[ "id" := JInt 1 ]}].
Proof. vm_compute. reflexivity. Qed.

(** C8. The cleaner is idempotent: cleaning its own output gives that output
    again. *)
Theorem cleaning_data_idempotent products cleaned :
  cleaning_data products = inr cleaned → cleaning_data cleaned = inr cleaned.
Proof.
  revert cleaned. induction products as [|product rest IH]; intros cleaned Hclean; simpl in *.
  - by simplify_eq.
  - destruct product; simplify_eq/=.
    destruct (cleaning_data rest) as [e|cleaned'] eqn:Hrest; simplify_eq/=.
    by rewrite (IH cleaned'), clean_idempotent.
Qed.

Lemma cleaning_data_idempotent_witness :
  cleaning_data [JObj {[ "id" := JInt 1 ]}; record3] = inr [JObj {[ "id" := JInt 1 ]}; record3].
Proof.
  apply (cleaning_data_idempotent [record1; record3]). vm_compute. reflexivity.
Defined.

(** Two pages of two records, cleaned: four records, none with ["_links"]. *)
Example two_pages_cleaned :
  ∃ st', load_data world_two_pages 2 service0 =
           Some (inr (Some [record1; record2; record3; record4]), st') ∧
         cleaning_data [record1; record2; record3; record4] =
           inr [JObj {[ "id" := JInt 1 ]}; JObj {[ "id" := JInt 2 ]}; record3; record4].
Proof. eexists. vm_compute. done. Qed.

(** ** The general facts at concrete runs *)

Lemma load_loop_sessions_witness : sessions (self two_pages_end) = [1; 1; 1].
Proof.
  apply (load_loop_sessions world_two_pages 2 [] service0
           (inr (Some [record1; record2; record3; record4])) two_pages_end).
  vm_compute. reflexivity.
Defined.

Lemma api_call_http_errors_exhaust_witness :
  ∃ st', _api_call (world_status 429) (_current_page_url service5) service5 = (inr None, st') ∧
         requests_sent st' = 5.
Proof.
  apply (api_call_http_errors_exhaust (world_status 429) (_current_page_url service5) service5).
  - simpl. discriminate.
  - intros t _. eexists. split; [reflexivity|]. simpl. lia.
Defined.

Lemma api_call_plain_value_error_witness :
  _api_call (world_unparsable (ValueError "Expecting value")) (_current_page_url service0)
            service0 =
    (inr None,
     add_log (ErrorInvalidJSON (ValueError "Expecting value"))
       (after_attempt (world_unparsable (ValueError "Expecting value")) 1
          (_current_page_url service0) service0)).
Proof.
  apply (api_call_plain_value_error _ _ service0 "Expecting value").
  - simpl. discriminate.
  - reflexivity.
Defined.

(** ** More on [_api_call] *)

(** X4. A fetch on a pool that is not empty sends at least one request and at
    most [max(1, max_retry)], and sleeps once between two requests: one time
    less than it sends requests. *)
Theorem api_call_attempt_bounds w url st :
  sessions (self st) ≠ [] →
  ∃ k : nat,
    requests_sent (_api_call w url st).2 = requests_sent st + k ∧
    1 ≤ k ∧ (Z.of_nat k ≤ Z.max 1 (_max_retry (self st)))%Z ∧
    length (slept (_api_call w url st).2) = length (slept st) + (k - 1).
Proof.
  intros Hs. destruct (api_call_trace w url st) as (_ & _ & n & Hn & Hslept & Hreq).
  exists (S n). split; [by apply Hreq|]. split; [lia|]. split; [lia|].
  rewrite Hslept, length_app, delays_length. lia.
Qed.

Lemma api_call_attempt_bounds_witness :
  ∃ k : nat,
    requests_sent (_api_call (world_status 503) (_current_page_url service5) service5).2
      = 0 + k ∧
    1 ≤ k ∧ (Z.of_nat k ≤ Z.max 1 5)%Z ∧
    length (slept (_api_call (world_status 503) (_current_page_url service5) service5).2)
      = 0 + (k - 1).
Proof.
  apply (api_call_attempt_bounds (world_status 503) (_current_page_url service5) service5).
  simpl. discriminate.
Defined.

Lemma sum_delays_bound c a n :
  (Z.max 0 (_min_retry_time c) ≤ _max_retry_time c)%Z →
  (foldr Z.add 0 (delays c a n) ≤ Z.of_nat n * _max_retry_time c)%Z.
Proof.
  intros Hminmax. revert a. induction n as [|n IH]; intros a; [done|].
  rewrite delays_S. simpl foldr.
  pose proof (wait_exponential_upper (_retry_time_multiplier c) (_min_retry_time c)
                (_max_retry_time c) a Hminmax).
  specialize (IH (a + 1)%Z). lia.
Qed.

(** X5. When [max(0, min_retry_time) <= max_retry_time], the backoff of one
    fetch blocks the caller for at most [(max_retry - 1) * max_retry_time]
    seconds in all (for no time at all when [max_retry <= 1]). *)
Theorem api_call_total_backoff w url st :
  (Z.max 0 (_min_retry_time (self st)) ≤ _max_retry_time (self st))%Z →
  ∃ ds : list Z,
    slept (_api_call w url st).2 = slept st ++ ds ∧
    (0 ≤ foldr Z.add 0 ds ≤ Z.max 0 (_max_retry (self st) - 1) * _max_retry_time (self st))%Z.
Proof.
  intros Hminmax. destruct (api_call_trace w url st) as (_ & _ & n & Hn & Hslept & _).
  exists (delays (self st) 1 n). split; [done|]. split.
  - clear Hn Hslept. generalize 1%Z. induction n as [|n IH]; intros a; [done|].
    rewrite delays_S. simpl foldr.
    pose proof (wait_exponential_lower (_retry_time_multiplier (self st))
                  (_min_retry_time (self st)) (_max_retry_time (self st)) a).
    specialize (IH (a + 1)%Z). unfold wait_exponential in *. lia.
  - etrans; [by apply sum_delays_bound|]. nia.
Qed.

Lemma api_call_total_backoff_witness :
  ∃ ds : list Z,
    slept (_api_call (world_raising ConnectionError) (_current_page_url service5) service5).2
      = [] ++ ds ∧
    (0 ≤ foldr Z.add 0 ds ≤ Z.max 0 (5 - 1) * 10)%Z.
Proof.
  apply (api_call_total_backoff (world_raising ConnectionError)
           (_current_page_url service5) service5).
  simpl. lia.
Defined.

(** A value comes out of the retry loop only through attempts that went as
    [fetches] says. *)
Lemma retrying_success w remaining : ∀ a url st j st',
  sessions (self st) ≠ [] →
  retrying w remaining a url st = (inr j, st') →
  fetches w (_max_retry (self st)) a (requests_sent st) url j (requests_sent st').
Proof.
  induction remaining as [|remaining IH]; intros a url st j st' Hs; simpl;
    rewrite attempt_nonempty by done;
    (destruct (attempt_reply w (requests_sent st) url) as [e|v] eqn:Hreply;
     [|intros [= -> <-]; by apply fetches_now]);
    (destruct (retry_if_exception_type e) eqn:Hretry; [|done]);
    simpl; (destruct (stop_after_attempt _ a) eqn:Hstop; [done|]); [done|].
  unfold mbind, M_bind, sleep. intros Hrun.
  apply IH in Hrun; [|done]. simpl in Hrun.
  by eapply fetches_retry.
Qed.

(** Whether the fetch obtains a parsed body, read off the world, against what
    [_api_call] does. *)
Lemma api_call_obtains w url st :
  sessions (self st) ≠ [] →
  match (_api_call w url st).1 with
  | inr (Some v) =>
      (∃ t', fetches w (_max_retry (self st)) 1 (requests_sent st) url v t') ∧
      ∀ j t', fetches w (_max_retry (self st)) 1 (requests_sent st) url j t' → j = v
  | _ => ∀ j t', ¬ fetches w (_max_retry (self st)) 1 (requests_sent st) url j t'
  end.
Proof.
  intros Hs.
  assert (∀ j t', fetches w (_max_retry (self st)) 1 (requests_sent st) url j t' →
                  (_api_call w url st).1 = inr (Some j)) as Hfetch.
  { intros j t' Hj. by destruct (api_call_fetches _ _ _ _ _ Hs Hj) as (st' & -> & _). }
  destruct (_api_call w url st) as [[e|[v|]] st'] eqn:Hcall; simpl in *.
  - intros j t' Hj%Hfetch. done.
  - split; [|by intros j t' [= ->]%Hfetch].
    rewrite api_call_unfold in Hcall.
    destruct (retrying w _ 1 url st) as [[e|v'] st1] eqn:Hrun; simplify_eq/=.
    exists (requests_sent st'). by eapply retrying_success.
  - intros j t' Hj%Hfetch. done.
Qed.

(** X6. With a pool that is not empty, the caller of [_api_call] holds a
    value [j] other than [None] exactly when an attempt of the fetch obtains
    [j] after attempts that all failed with exceptions the retry predicate
    accepts, the stop test leaving room for one more each time; and it holds
    [None] exactly when the fetch obtains no body, or the body [null]. *)
Theorem api_call_success_iff w url st :
  sessions (self st) ≠ [] →
  (∀ j, j ≠ JNull →
     returned (_api_call w url st).1 = j ↔
     ∃ t', fetches w (_max_retry (self st)) 1 (requests_sent st) url j t') ∧
  (returned (_api_call w url st).1 = JNull ↔
     ∀ j t', fetches w (_max_retry (self st)) 1 (requests_sent st) url j t' → j = JNull).
Proof.
  intros Hs. pose proof (api_call_obtains w url st Hs) as Hobtains.
  destruct (_api_call w url st).1 as [e|[v|]]; simpl.
  - split; [intros j Hj; split; [done|by intros [t' ?%Hobtains]]|].
    split; [by intros _ j t' ?%Hobtains|done].
  - destruct Hobtains as ((t' & Hv) & Honly). split.
    + intros j Hj. split; [intros <-; eauto|by intros [t'' ->%Honly]].
    + split; [by intros -> j t'' ->%Honly|eauto].
  - split; [intros j Hj; split; [done|by intros [t' ?%Hobtains]]|].
    split; [by intros _ j t' ?%Hobtains|done].
Qed.

Lemma api_call_success_iff_witness :
  returned (_api_call world_two_pages (_current_page_url service0) service0).1
    = page [record1; record2] (Some next_url).
Proof.
  apply (api_call_success_iff world_two_pages (_current_page_url service0) service0).
  - simpl. discriminate.
  - discriminate.
  - exists 2. eapply fetches_retry; [reflexivity..|]. apply fetches_now. reflexivity.
Defined.

(** A 200 reply with the body [null]: the caller holds [None] after one
    request, and no error record is logged. *)
Example api_call_null_body :
  let run := _api_call (world_then (Responds (mkResponse 200 (inr JNull))))
                       next_url (second_turn (Responds (mkResponse 200 (inr JNull)))) in
  returned run.1 = JNull ∧ requests_sent run.2 = 2 ∧
  log run.2 = [InfoAttempt 1 (_current_page_url service0); InfoAttempt 1 next_url].
Proof. vm_compute. done. Qed.

(** ** What a fetch and a run write to the log *)

Lemma attempts_logged_S a url k :
  attempts_logged a url (S k) = InfoAttempt a url :: attempts_logged (a + 1) url k.
Proof.
  unfold attempts_logged. rewrite <- cons_seq, fmap_cons, <- fmap_S_seq, <- list_fmap_compose.
  f_equal; [f_equal; lia|]. apply list_fmap_ext. intros i x _. simpl. f_equal. lia.
Qed.

Lemma retrying_log w remaining : ∀ a url st,
  sessions (self st) ≠ [] →
  ∃ k : nat,
    requests_sent (retrying w remaining a url st).2 = requests_sent st + S k ∧
    log (retrying w remaining a url st).2 = log st ++ attempts_logged a url (S k).
Proof.
  induction remaining as [|remaining IH]; intros a url st Hs; simpl;
    rewrite attempt_nonempty by done;
    (assert (∃ k : nat,
        requests_sent (after_attempt w a url st) = requests_sent st + S k ∧
        log (after_attempt w a url st) = log st ++ attempts_logged a url (S k)) as Hdone
       by (exists 0; split; [simpl; lia|]; unfold attempts_logged; simpl; by rewrite Z.add_0_r));
    (destruct (attempt_reply w (requests_sent st) url) as [e|v]; [|exact Hdone]);
    (destruct (retry_if_exception_type e); [|exact Hdone]);
    simpl; (destruct (stop_after_attempt _ a); [exact Hdone|]); [exact Hdone|].
  unfold mbind, M_bind, sleep.
  match goal with |- context [retrying _ _ _ _ ?s] =>
    destruct (IH (a + 1)%Z url s) as (k & Hreq & Hlog) end; [done|].
  exists (S k). simpl in *. split; [lia|].
  by rewrite Hlog, (attempts_logged_S a url (S k)), <- app_assoc.
Qed.

(** X7. A fetch on a pool that is not empty logs one record per request, with
    the attempt numbers 1, 2, ... in order and the URL, before the request is
    sent. After them it logs nothing when an attempt obtained a parsed body
    (so whenever the caller holds a value other than [None]), and exactly one
    error record when none did. *)
Theorem api_call_log w url st :
  sessions (self st) ≠ [] →
  ∃ (k : nat) (tail : list log_entry),
    requests_sent (_api_call w url st).2 = requests_sent st + S k ∧
    log (_api_call w url st).2 = log st ++ attempts_logged 1 url (S k) ++ tail ∧
    (tail = [] ∨ ∃ e, tail = [log_error e]) ∧
    (tail = [] ↔
     ∃ j t', fetches w (_max_retry (self st)) 1 (requests_sent st) url j t') ∧
    (returned (_api_call w url st).1 ≠ JNull → tail = []).
Proof.
  intros Hs. pose proof (api_call_obtains w url st Hs) as Hobtains.
  rewrite api_call_unfold in *.
  destruct (retrying_log w (Z.to_nat (_max_retry (self st) - 1)) 1%Z url st Hs)
    as (k & Hreq & Hlog).
  destruct (retrying w _ 1 url st) as [[e|v] st1]; simpl in *.
  - exists k, [log_error e]. rewrite Hlog, <- app_assoc.
    split; [done|]. split; [done|]. split; [eauto|].
    split; [|done]. split; [done|]. by intros (j & t' & ?%Hobtains).
  - exists k, []. rewrite Hlog, app_nil_r.
    split; [done|]. split; [done|]. split; [eauto|].
    split; [|done]. split; [|done]. intros _. destruct Hobtains as ((t' & Hv) & _). eauto.
Qed.

Lemma api_call_log_witness :
  ∃ (k : nat) (tail : list log_entry),
    requests_sent (_api_call (world_status 404) next_url service0).2 = 0 + S k ∧
    log (_api_call (world_status 404) next_url service0).2
      = [] ++ attempts_logged 1 next_url (S k) ++ tail ∧
    (tail = [] ∨ ∃ e, tail = [log_error e]) ∧
    (tail = [] ↔ ∃ j t', fetches (world_status 404) 3 1 0 next_url j t') ∧
    (returned (_api_call (world_status 404) next_url service0).1 ≠ JNull → tail = []).
Proof.
  apply (api_call_log (world_status 404) next_url service0). simpl. discriminate.
Defined.








(** ** The pool over a run *)

Lemma retrying_session w remaining : ∀ a url st,
  session_in_pool st → session_in_pool (retrying w remaining a url st).2.
Proof.
  assert (∀ a url st, sessions (self st) ≠ [] → session_in_pool (after_attempt w a url st))
    as Hafter.
  { intros a url st Hs. unfold session_in_pool. simpl.
    apply Nat.mod_upper_bound. by destruct (sessions (self st)). }
  induction remaining as [|remaining IH]; intros a url st Hin; simpl;
    (destruct (decide (sessions (self st) = [])) as [Hs|Hs];
     [by rewrite attempt_empty|]);
    rewrite attempt_nonempty by done;
    specialize (Hafter a url st Hs);
    (destruct (attempt_reply w (requests_sent st) url) as [e|v]; [|exact Hafter]);
    (destruct (retry_if_exception_type e); [|exact Hafter]);
    simpl; (destruct (stop_after_attempt _ a); [exact Hafter|]); [exact Hafter|].
  unfold mbind, M_bind, sleep. by apply IH.
Qed.

Lemma api_call_session w url st :
  session_in_pool st → session_in_pool (_api_call w url st).2.
Proof.
  intros Hin. rewrite api_call_unfold.
  pose proof (retrying_session w (Z.to_nat (_max_retry (self st) - 1)) 1%Z url st Hin) as H.
  by destruct (retrying w _ 1 url st) as [[e|v] st1].
Qed.

Lemma merge_page_pool products json_response st :
  length (sessions (self (merge_page products json_response st).2))
    = length (sessions (self st)) ∧
  _session (merge_page products json_response st).2 = _session st.
Proof.
  unfold merge_page; unfold_M.
  destruct json_response as [j|]; [|done]. destruct (truthy j); [|done]. simpl.
  repeat (case_match; simplify_eq/=); try done.
  by rewrite length_fmap.
Qed.

Lemma load_step_pool w products st :
  length (sessions (self (load_step w products st).2)) = length (sessions (self st)) ∧
  (session_in_pool st → session_in_pool (load_step w products st).2).
Proof.
  rewrite load_step_unfold.
  destruct (merge_page_pool products
              (match (_api_call w (_current_page_url st) st).1 with
               | inr r => r | inl _ => None end)
              (_api_call w (_current_page_url st) st).2) as (Hlen & Hsess).
  destruct (api_call_trace w (_current_page_url st) st) as (Hself & _).
  split; [by rewrite Hlen, Hself|].
  intros Hin%(api_call_session w (_current_page_url st)).
  unfold session_in_pool in *. by rewrite Hsess, Hlen.
Qed.

(** X9. Over a whole run of [load_data], however it ends, the pool keeps its
    size (no session is added or removed, closing included), and
    [self._session] stays a session of the pool. *)
Theorem load_loop_pool w fuel : ∀ products st r st',
  load_loop w fuel products st = Some (r, st') →
  length (sessions (self st')) = length (sessions (self st)) ∧
  (session_in_pool st → session_in_pool st').
Proof.
  induction fuel as [|fuel IH]; intros products st r st' Hrun; [done|].
  simpl in Hrun. destruct (load_step_pool w products st) as (Hlen & Hin).
  destruct (load_step w products st) as [[e|[products'|result]] st1]; simplify_eq/=; try done.
  apply IH in Hrun as (Hlen' & Hin'). split; [congruence|auto].
Qed.

Lemma load_loop_pool_witness :
  length (sessions (self two_pages_end)) = 3 ∧
  (session_in_pool service0 → session_in_pool two_pages_end).
Proof.
  apply (load_loop_pool world_two_pages 2 [] service0
           (inr (Some [record1; record2; record3; record4])) two_pages_end).
  vm_compute. reflexivity.
Defined.

(** ** Where a run leaves [_current_page_url] *)

Lemma merge_page_url products json_response st :
  match (merge_page products json_response st).1 with
  | inr (Continue _) => True
  | _ => _current_page_url (merge_page products json_response st).2 = _current_page_url st
  end.
Proof.
  unfold merge_page; unfold_M.
  destruct json_response as [j|]; [|done]. destruct (truthy j); [|done]. simpl.
  repeat (case_match; simplify_eq/=); done.
Qed.

(** X10. [load_data] never goes back to the first page: the turn that ends
    the loop (by a returned list, by [None] or by an exception) leaves
    [_current_page_url] at the URL it fetched, so that a later call of
    [load_data] starts from there. *)
Theorem load_data_leaves_cursor w st0 n products st :
  nsteps (turn w) n ([], st0) (products, st) →
  (∀ products', (load_step w products st).1 ≠ inr (Continue products')) →
  ∀ fuel, n < fuel →
    ∃ r st', load_data w fuel st0 = Some (r, st') ∧
             _current_page_url st' = _current_page_url st.
Proof.
  intros Hturns Hends fuel Hfuel.
  destruct (load_step w products st) as [result st'] eqn:Hstep.
  eexists _, st'. split.
  - by apply (load_loop_after_turns _ _ _ _ result st' Hturns).
  - pose proof (merge_page_url products
                  (match (_api_call w (_current_page_url st) st).1 with
                   | inr r => r | inl _ => None end)
                  (_api_call w (_current_page_url st) st).2) as Hurl.
    rewrite <- load_step_unfold, Hstep in Hurl. simpl in *.
    destruct (api_call_trace w (_current_page_url st) st) as (_ & <- & _).
    destruct result as [e|[products'|r]]; [done| |done].
    by destruct (Hends products').
Qed.

Lemma load_data_leaves_cursor_witness :
  ∃ r st', load_data world_two_pages 2 service0 = Some (r, st') ∧
           _current_page_url st' = next_url.
Proof.
  apply (load_data_leaves_cursor world_two_pages service0 1 [record1; record2]
           two_pages_second_turn).
  - apply nsteps_once. vm_compute. reflexivity.
  - intros products'. vm_compute. discriminate.
  - lia.
Defined.

(** A second call on the service that has fetched the two pages of
    [world_two_pages] fetches the second page again, returns its two records
    only, and closes every session a second time. *)
Example load_data_called_again :
  ∃ st', load_data world_two_pages 1 two_pages_end = Some (inr (Some [record3; record4]), st') ∧
         sessions (self st') = [2; 2; 2].
Proof. eexists. vm_compute. done. Qed.

(** ** Pages that always link on *)

(** X11. The loop has no bound and no memory of the URLs it has seen: when
    every GET is answered with a page that has a ["next"] link, [load_data]
    never returns, whatever fuel it is given. *)
Theorem load_data_endless w st :
  sessions (self st) ≠ [] →
  (∀ t url, ∃ j records href,
      attempt_reply w t url = inr j ∧ envelope j records (Some href)) →
  ∀ fuel, load_data w fuel st = None.
Proof.
  intros Hs Hw fuel. unfold load_data. generalize (@nil json) as products.
  revert st Hs. induction fuel as [|fuel IH]; intros st Hs products; [done|].
  simpl. destruct (Hw (requests_sent st) (_current_page_url st))
    as (j & records & href & Hj & Henv).
  destruct (api_call_fetches w (_current_page_url st) st j (S (requests_sent st)))
    as (st1 & Hcall & Hself & _); [done|by apply fetches_now|].
  rewrite load_step_unfold, Hcall. cbn [fst snd].
  rewrite (merge_page_next _ _ _ records href) by done.
  apply IH. simpl. by rewrite Hself.
Qed.

Lemma load_data_endless_witness : load_data world_endless 40 service0 = None.
Proof.
  apply (load_data_endless world_endless service0).
  - simpl. discriminate.
  - intros t url. eexists _, _, _. split; [reflexivity|apply envelope_page].
Defined.

(** ** A ["next"] link that cannot be followed *)

(** X12. When a page has a ["next"] entry under ["_links"] that is an object
    without ["href"], [load_data] raises [KeyError]; when the entry is not an
    object ([null], a string, a list), it raises [TypeError]. In both cases
    the caller gets none of the records fetched so far. *)
Theorem load_data_malformed_next_link w st0 n products st o e p l next :
  nsteps (turn w) n ([], st0) (products, st) →
  (_api_call w (_current_page_url st) st).1 = inr (Some (JObj o)) →
  o !! "_embedded" = Some (JObj e) → e !! "produits" = Some p → iterable p = true →
  o !! "_links" = Some (JObj l) → l !! "next" = Some next →
  ∀ fuel, n < fuel →
    let st1 := (_api_call w (_current_page_url st) st).2 in
    (∀ m, next = JObj m → m !! "href" = None →
       load_data w fuel st0 = Some (inl (KeyError "href"), st1)) ∧
    (is_dict next = false → load_data w fuel st0 = Some (inl TypeError, st1)).
Proof.
  intros Hturns Hj Ho He Hp Hl Hnext fuel Hfuel st1.
  assert (∀ err, getitem next "href" = inl err →
                 load_data w fuel st0 = Some (inl err, st1)) as Hraise.
  { intros err Hhref.
    apply (load_loop_after_turns _ _ _ _ (inl err) _ Hturns); [|done..].
    cbn [fst snd]. rewrite load_step_unfold, Hj. unfold merge_page.
    rewrite (truthy_JObj_lookup _ _ _ Ho). simpl. unfold_M. simpl.
    rewrite Ho. simpl. rewrite He.
    destruct p; try discriminate; simpl; rewrite Hl; simpl; rewrite Hnext;
      rewrite bool_decide_true by eauto; simpl; by rewrite Hhref. }
  split.
  - intros m -> Hm. apply Hraise. simpl. by rewrite Hm.
  - intros Hnd. apply Hraise. by destruct next.
Qed.

Lemma load_data_malformed_next_link_witness :
  (∃ st', load_data (world_next_link (JObj ∅)) 2 service0 =
            Some (inl (KeyError "href"), st')) ∧
  (∃ st', load_data (world_next_link JNull) 2 service0 = Some (inl TypeError, st')).
Proof.
  assert (∀ next, nsteps (turn (world_next_link next)) 1 ([], service0)
                    ([record1; record2],
                     second_turn (Responds (mkResponse 200 (inr
                       (JObj {[ "_embedded" := JObj {[ "produits" := JArr [record3] ]};
                                "_links" := JObj {[ "next" := next ]} ]}))))))
    as Hturn.
  { intros next. apply nsteps_once. vm_compute. reflexivity. }
  pose proof (λ next,
    load_data_malformed_next_link (world_next_link next) service0 1 [record1; record2] _
      _ _ (JArr [record3]) _ next (Hturn next) eq_refl eq_refl eq_refl eq_refl eq_refl
      eq_refl 2 (le_n 2)) as H.
  split; eexists.
  - eapply (H (JObj ∅)); reflexivity.
  - eapply (H JNull); reflexivity.
Defined.

(** ** The cleaner on arbitrary lists *)

Lemma cleaning_data_forallb products :
  cleaning_data products =
  if forallb is_dict products then inr (clean_record <$> products) else inl AttributeError.
Proof.
  induction products as [|product rest IH]; [done|].
  simpl. destruct product; try done. simpl. rewrite IH.
  by destruct (forallb is_dict rest).
Qed.

Lemma forallb_is_dict_true products :
  forallb is_dict products = true → Forall (λ j, is_dict j = true) products.
Proof.
  induction products as [|product rest IH]; simpl; [done|].
  intros [Hp Hrest]%andb_true_iff. constructor; auto.
Qed.

Lemma forallb_is_dict_false products :
  forallb is_dict products = false → ∃ j, j ∈ products ∧ is_dict j = false.
Proof.
  induction products as [|product rest IH]; simpl; [done|].
  destruct (is_dict product) eqn:Hp; simpl.
  - intros (j & Hin & Hj)%IH. exists j. split; [by right|done].
  - intros _. exists product. split; [by left|done].
Qed.

(** X13. [cleaning_data] raises exactly when some element of the list is not
    a dict, and then it raises [AttributeError] and returns nothing; on a
    list of dicts it returns each record without its top-level ["_links"]
    field. *)
Theorem cleaning_data_attribute_error products :
  (cleaning_data products = inl AttributeError ↔ ∃ j, j ∈ products ∧ is_dict j = false) ∧
  (∀ e, cleaning_data products = inl e → e = AttributeError) ∧
  (∀ cleaned, cleaning_data products = inr cleaned →
     cleaned = clean_record <$> products ∧ Forall (λ j, is_dict j = true) products).
Proof.
  rewrite cleaning_data_forallb.
  destruct (forallb is_dict products) eqn:Hall.
  - pose proof (forallb_is_dict_true _ Hall) as Hdicts.
    split; [split; [done|]|split; [done|]].
    + intros (j & Hin & Hj). rewrite Forall_forall in Hdicts.
      specialize (Hdicts j Hin). congruence.
    + by intros cleaned [= <-].
  - split; [split; [|done]|split; [by intros e [= <-]|done]].
    intros _. by apply forallb_is_dict_false.
Qed.

Example cleaning_data_not_a_dict :
  cleaning_data [record1; JStr "riz"; record3] = inl AttributeError.
Proof. reflexivity. Qed.

Lemma cleaning_data_inr products cleaned :
  cleaning_data products = inr cleaned →
  length cleaned = length products ∧
  Forall (λ j, ∃ o : gmap string json, j = JObj o ∧ o !! "_links" = None) cleaned.
Proof.
  revert cleaned. induction products as [|product rest IH]; intros cleaned Hclean;
    simpl in *; simplify_eq; [done|].
  destruct product; simplify_eq/=.
  destruct (cleaning_data rest) as [e|cleaned'] eqn:Hrest; simplify_eq/=.
  destruct (IH cleaned' eq_refl) as (Hlen & Hall).
  split; [by rewrite Hlen|]. constructor; [|done].
  eexists. split; [done|]. apply clean_lookup_links.
Qed.

(** ** The entry point *)

(** X14. When the endpoint serves its pages but they hold no record at all,
    the entry point logs "Data loading failed" and exports nothing: the empty
    list [load_data] returns is falsy, like [None]. *)
Theorem main_no_product w pages :
  serves w 3 0 (JStr "https://prix.nc/api/v1/produits/?page=0&size=1000") pages →
  concat pages = [] →
  ∀ fuel, length pages ≤ fuel → main w fuel = Some DataLoadingFailed.
Proof.
  intros Hserves Hempty fuel Hfuel. unfold main. rewrite PrixNcExctractService_init_1000.
  destruct (load_loop_serves _ _ _ _ _ Hserves [] service0) as (st' & Hrun & _); try done.
  unfold load_data. by rewrite (Hrun fuel Hfuel), Hempty.
Qed.

Lemma main_no_product_witness : main world_no_product 1 = Some DataLoadingFailed.
Proof.
  apply (main_no_product world_no_product [[]]).
  - eapply serves_last; [apply fetches_now; reflexivity | apply envelope_page].
  - reflexivity.
  - simpl. lia.
Defined.

(** X15. Whatever the entry point hands to the exporter is the cleaned form
    of a non-empty list that [load_data] returned: as many records, all dicts
    without ["_links"], written to "produits_nc.pdf"; so the guard of
    [to_pdf] against empty data never fires there. *)
Theorem main_exports_cleaned w fuel data filepath title :
  main w fuel = Some (ToPdf data filepath title) →
  filepath = "produits_nc.pdf" ∧ to_pdf_skips data = false ∧
  ∃ raw st', load_data w fuel service0 = Some (inr (Some raw), st') ∧
             cleaning_data raw = inr data ∧ length data = length raw ∧
             Forall (λ j, ∃ o : gmap string json, j = JObj o ∧ o !! "_links" = None) data.
Proof.
  unfold main. rewrite PrixNcExctractService_init_1000.
  destruct (load_data w fuel service0) as [[[e|[[|product rest]|]] st']|]; try done.
  destruct (cleaning_data (product :: rest)) as [e|cleaned] eqn:Hclean; [done|].
  intros [= <- <- <-]. destruct (cleaning_data_inr _ _ Hclean) as (Hlen & Hall).
  split; [done|]. split; [by destruct cleaned|]. eauto 10.
Qed.

Lemma main_exports_cleaned_witness :
  to_pdf_skips [JObj {[ "id" := JInt 1 ]}; JObj {[ "id" := JInt 2 ]}; record3; record4] = false ∧
  ∃ raw st', load_data world_two_pages 2 service0 = Some (inr (Some raw), st') ∧
             cleaning_data raw =
               inr [JObj {[ "id" := JInt 1 ]}; JObj {[ "id" := JInt 2 ]}; record3; record4].
Proof.
  destruct (main_exports_cleaned world_two_pages 2
              [JObj {[ "id" := JInt 1 ]}; JObj {[ "id" := JInt 2 ]}; record3; record4]
              "produits_nc.pdf" "Here is the given title")
    as (_ & Hskip & raw & st' & Hrun & Hclean & _).
  - vm_compute. reflexivity.
  - split; [exact Hskip|]. eauto.
Defined.
